(** * MultiBatch: splitting Firestore writes over several WriteBatch handles

    Shallow embedding of [src/multiBatch.ts].  The class keeps an array of
    write-batch handles obtained from the Firestore connection, a counter of
    the operations staged on the last handle and a per-handle limit; every
    [delete]/[set]/[update] goes through [getBatch], and [commit] awaits
    [Promise.all] over the commits of all handles before it resets the
    object.

    Modelling choices.
    - JavaScript numbers ([limit], [operations]) are [Z]: the development
      covers integral limits.
    - A [Firestore.WriteBatch] is a mutable object reached through a
      reference.  The connection is modelled as the store of all handles it
      has handed out (a list indexed by creation order); a handle is its
      index in that store and its content is the list of calls staged on it,
      oldest first.
    - The outcome of the driver's [WriteBatch.commit] is not decided by this
      file: it is supplied by a [Driver], one settlement per handle, with the
      tick at which the promise settles.  What a handle's commit writes to
      the database is the driver's business and is not part of the store.
    - A call of [commit] is taken as one step: no mutator runs while its
      promise is pending. *)

From Stdlib Require Import ZArith Lia String.
From stdpp Require Import base list.

Open Scope Z_scope.

(** ** Data of the Firestore API used by the class *)

Abbreviation DocumentReference := string (only parsing).
Abbreviation DocumentData := (list (string * string)) (only parsing).
Abbreviation UpdateData := (list (string * string)) (only parsing).

Record SetOptions := {
  merge : option bool;
  mergeFields : option (list string)
}.

(** The options object [{}]. *)
Definition empty_options : SetOptions :=
  {| merge := None; mergeFields := None |}.

(** What the caller puts in the optional third parameter of [set]. *)
Inductive OptionsArg :=
| arg_undefined                   (* omitted, or [undefined] *)
| arg_null
| arg_options (o : SetOptions).

(** One call received by a [WriteBatch]; [call_set] is the two-argument
    form, [call_set_options] the three-argument one. *)
Inductive StagedCall :=
| call_delete (ref : DocumentReference)
| call_set (ref : DocumentReference) (data : DocumentData)
| call_set_options (ref : DocumentReference) (data : DocumentData)
                   (options : SetOptions)
| call_update (ref : DocumentReference) (data : UpdateData).

Abbreviation Handle := nat (only parsing).
Abbreviation WriteBatch := (list StagedCall) (only parsing).
Abbreviation Firestore := (list (list StagedCall)) (only parsing).

(** [db.batch()]: a new empty handle, appended to the store. *)
Definition batch (db : Firestore) : Handle * Firestore :=
  (length db, db ++ [[]]).

(** A staging call [b.delete(..)], [b.set(..)] or [b.update(..)] on handle
    [b].  Every handle an object holds comes from [batch], so it is in the
    store ([handles_valid] below); on an index outside the store, which no
    reference can be, [alter] changes nothing. *)
Definition stage (b : Handle) (c : StagedCall) (db : Firestore) : Firestore :=
  alter (λ calls, calls ++ [c]) b db.

(** ** Promises *)

Abbreviation Reason := string (only parsing).

Inductive Outcome (A : Type) :=
| Fulfilled (a : A)
| Rejected (reason : Reason).
Arguments Fulfilled {A} a.
Arguments Rejected {A} reason.

Record Settlement (A : Type) := {
  tick : nat;
  outcome : Outcome A
}.
Arguments tick {A} s.
Arguments outcome {A} s.

Record WriteResult := { writeTime : nat }.

Abbreviation Driver := (nat → Settlement (list WriteResult)) (only parsing).

(** The rejection [Promise.all] reports: the one that settles first; of two
    settling at the same tick, the one earlier in the array. *)
Fixpoint first_rejection {A} (ps : list (Settlement A)) : option (nat * Reason) :=
  match ps with
  | [] => None
  | p :: ps' =>
      match outcome p, first_rejection ps' with
      | Fulfilled _, later => later
      | Rejected r, None => Some (tick p, r)
      | Rejected r, Some (t', r') =>
          if (tick p <=? t')%nat then Some (tick p, r) else Some (t', r')
      end
  end.

Fixpoint fulfilled_values {A} (ps : list (Settlement A)) : list A :=
  match ps with
  | [] => []
  | p :: ps' =>
      match outcome p with
      | Fulfilled a => a :: fulfilled_values ps'
      | Rejected _ => fulfilled_values ps'
      end
  end.

Definition Promise_all {A} (ps : list (Settlement A)) : Outcome (list A) :=
  match first_rejection ps with
  | Some (_, r) => Rejected r
  | None => Fulfilled (fulfilled_values ps)
  end.

(** ** The class *)

Definition BATCH_LIMIT : Z := 500.

(** The fields of a [MultiBatch] object.  The field [db] is the connection;
    there is one connection, whose store is threaded through every method. *)
Record MultiBatch := {
  limit : Z;
  batches : list nat;
  operations : Z
}.

Inductive Exception :=
| TypeError.   (* a method called on [undefined] *)

Inductive Completion (A : Type) :=
| Normal (a : A)
| Throw (e : Exception).
Arguments Normal {A} a.
Arguments Throw {A} e.

Abbreviation State := (MultiBatch * list (list StagedCall))%type (only parsing).

(** [new MultiBatch(db, limit)]; [None] is the omitted argument, which takes
    the default [BATCH_LIMIT]. *)
Definition constructor (limit_arg : option Z) (db : Firestore)
  : Completion State :=
  let limit0 := match limit_arg with Some l => l | None => BATCH_LIMIT end in
  let '(b, db') := batch db in
  Normal ({| limit := if limit0 <? BATCH_LIMIT then limit0 else BATCH_LIMIT;
             batches := [b];
             operations := 0 |}, db').

(** [getBatch()]: the handle to stage on ([None] is [undefined], what
    indexing an empty array gives), with the updated object and store. *)
Definition getBatch (mb : MultiBatch) (db : Firestore)
  : option Handle * MultiBatch * Firestore :=
  if operations mb <? limit mb then (last (batches mb), mb, db)
  else
    let '(b, db') := batch db in
    (Some b,
     {| limit := limit mb; batches := batches mb ++ [b]; operations := 0 |},
     db').

(** The shape shared by the three mutators:
    [this.getBatch().m(..); this.operations++; return this]. *)
Definition stage_on_target (c : StagedCall) (mb : MultiBatch) (db : Firestore)
  : Completion State :=
  let '(target, mb1, db1) := getBatch mb db in
  match target with
  | None => Throw TypeError
  | Some b =>
      Normal ({| limit := limit mb1;
                 batches := batches mb1;
                 operations := operations mb1 + 1 |}, stage b c db1)
  end.

Definition delete (ref : DocumentReference) (mb : MultiBatch) (db : Firestore)
  : Completion State :=
  stage_on_target (call_delete ref) mb db.

(** [options == undefined] holds for [undefined] and for [null]. *)
Definition set (ref : DocumentReference) (data : DocumentData)
    (options : OptionsArg) (mb : MultiBatch) (db : Firestore)
  : Completion State :=
  match options with
  | arg_undefined | arg_null => stage_on_target (call_set ref data) mb db
  | arg_options o => stage_on_target (call_set_options ref data o) mb db
  end.

Definition update (ref : DocumentReference) (data : UpdateData)
    (mb : MultiBatch) (db : Firestore) : Completion State :=
  stage_on_target (call_update ref data) mb db.

(** The declared result type of [commit], [void | WriteResult[][]]. *)
Inductive CommitValue :=
| void
| write_results (rs : list (list WriteResult)).

(** [commit()]: when the awaited [Promise.all] rejects, the two assignments
    after it are not reached and the promise of [commit] rejects with the
    same reason; otherwise the object is reset and the function ends without
    a return statement. *)
Definition commit (drv : Driver) (mb : MultiBatch) (db : Firestore)
  : Outcome CommitValue * MultiBatch * Firestore :=
  match Promise_all (map drv (batches mb)) with
  | Rejected r => (Rejected r, mb, db)
  | Fulfilled _ =>
      let '(b, db') := batch db in
      (Fulfilled void,
       {| limit := limit mb; batches := [b]; operations := 0 |}, db')
  end.

(** ** Client programs *)

(** A call of one of the three mutators. *)
Inductive Operation :=
| op_delete (ref : DocumentReference)
| op_set (ref : DocumentReference) (data : DocumentData) (options : OptionsArg)
| op_update (ref : DocumentReference) (data : UpdateData).

Definition enqueue (op : Operation) (st : State) : Completion State :=
  match op with
  | op_delete ref => delete ref (fst st) (snd st)
  | op_set ref data options => set ref data options (fst st) (snd st)
  | op_update ref data => update ref data (fst st) (snd st)
  end.

(** The call the underlying handle receives for an operation. *)
Definition call_of (op : Operation) : StagedCall :=
  match op with
  | op_delete ref => call_delete ref
  | op_set ref data (arg_options o) => call_set_options ref data o
  | op_set ref data _ => call_set ref data
  | op_update ref data => call_update ref data
  end.

Fixpoint enqueue_all (ops : list Operation) (st : State) : Completion State :=
  match ops with
  | [] => Normal st
  | op :: ops' =>
      match enqueue op st with
      | Normal st' => enqueue_all ops' st'
      | Throw e => Throw e
      end
  end.

(** [new MultiBatch(db, limit)] followed by a sequence of mutator calls. *)
Definition session (limit_arg : option Z) (ops : list Operation)
    (db : Firestore) : Completion State :=
  match constructor limit_arg db with
  | Normal st => enqueue_all ops st
  | Throw e => Throw e
  end.

(** A caller that interleaves mutator calls and commits; a rejected commit
    is caught and the caller goes on. *)
Inductive Action :=
| act_enqueue (op : Operation)
| act_commit (drv : Driver).

Fixpoint run (script : list Action) (st : State) : Completion State :=
  match script with
  | [] => Normal st
  | act_enqueue op :: rest =>
      match enqueue op st with
      | Normal st' => run rest st'
      | Throw e => Throw e
      end
  | act_commit drv :: rest =>
      let '(_, mb', db') := commit drv (fst st) (snd st) in run rest (mb', db')
  end.

(** [new MultiBatch(db, limit)] followed by such a caller. *)
Definition program (limit_arg : option Z) (script : list Action)
    (db : Firestore) : Completion State :=
  match constructor limit_arg db with
  | Normal st => run script st
  | Throw e => Throw e
  end.

(** ** Notions used by the statements *)

(** ceil(n / l) for a positive [l]. *)
Definition ceil_div (n l : Z) : Z :=
  if n mod l =? 0 then n / l else n / l + 1.

(** The invariant of the object's own fields. *)
Definition fields_inv (mb : MultiBatch) : Prop :=
  batches mb ≠ [] ∧ 0 ≤ operations mb ≤ limit mb.

(** Where a round of operations starts: right after construction, or right
    after a commit that succeeded. *)
Inductive round_start : State → Prop :=
| start_constructed limit_arg db0 st :
    constructor limit_arg db0 = Normal st → round_start st
| start_committed drv mb db v mb' db' :
    commit drv mb db = (Fulfilled v, mb', db') → round_start (mb', db').

(** The states of a round over a connection that had handed out [db0]
    before: the handles of the round are the consecutive new ones, [full] are
    the contents of all but the last and [cur] the content of the last. *)
Definition round_state (L : Z) (db0 : Firestore) (full : list (list StagedCall))
    (cur : list StagedCall) : State :=
  ({| limit := L;
      batches := seq (length db0) (S (length full));
      operations := Z.of_nat (length cur) |},
   db0 ++ full ++ [cur]).

Definition chunks_ok (L : Z) (full : list (list StagedCall))
    (cur : list StagedCall) : Prop :=
  Forall (λ b, length b = Z.to_nat L) full
  ∧ (length cur ≤ Z.to_nat L)%nat
  ∧ (cur = [] → full = []).

(** Every handle of the object is a handle of the connection, and there is
    at least one. *)
Definition handles_valid (st : State) : Prop :=
  batches (fst st) ≠ []
  ∧ Forall (λ h, (h < length (snd st))%nat) (batches (fst st)).

(** Every handle created since the store had [n0] handles holds at most [L]
    calls, the last handle of [batches] holds [operations] calls and is
    distinct from the handles before it. *)
Definition capacity_inv (L : Z) (n0 : nat) (st : State) : Prop :=
  limit (fst st) = L
  ∧ 0 ≤ operations (fst st) ≤ L
  ∧ (∃ init h cur,
        batches (fst st) = init ++ [h]
        ∧ (h ∉ init)
        ∧ snd st !! h = Some cur
        ∧ Z.of_nat (length cur) = operations (fst st))
  ∧ Forall (λ h, (h < length (snd st))%nat) (batches (fst st))
  ∧ (∀ i b, (n0 ≤ i)%nat → snd st !! i = Some b → Z.of_nat (length b) ≤ L).

(** What holds of an object over a connection that had handed out [old]
    before the object was made, whatever the limit: the store still starts
    with [old], the handles of the object are distinct handles made after
    [old], and [operations] counts the calls on the last of them. *)
Definition owned_inv (old : list (list StagedCall)) (st : State) : Prop :=
  (∃ new, snd st = old ++ new)
  ∧ NoDup (batches (fst st))
  ∧ Forall (λ h, (length old ≤ h < length (snd st))%nat) (batches (fst st))
  ∧ (∃ h cur,
        last (batches (fst st)) = Some h
        ∧ snd st !! h = Some cur
        ∧ Z.of_nat (length cur) = operations (fst st)).

(** The object of a thrown completion is lost; [fields] reads the object of
    a normal one. *)
Definition fields (r : Completion State) : option MultiBatch :=
  match r with
  | Normal st => Some (fst st)
  | Throw _ => None
  end.

Definition sample_set : Operation :=
  op_set "test/doc"%string [("foo"%string, "bar"%string)] arg_undefined.

(** Settlements and drivers for the examples. *)
Definition ok_at (t : nat) : Settlement (list WriteResult) :=
  {| tick := t; outcome := Fulfilled [ {| writeTime := t |} ] |}.

Definition fails_at (t : nat) (r : Reason) : Settlement (list WriteResult) :=
  {| tick := t; outcome := Rejected r |}.

Definition all_ok : Driver := λ _, ok_at 1.

(** Only handle [h] is rejected, with [r]. *)
Definition only_fails (h : nat) (r : Reason) : Driver :=
  λ h', if decide (h' = h) then fails_at 1 r else ok_at 1.

(** An object with limit 1 after three calls: three handles, one call each. *)
Definition three_handles : MultiBatch :=
  {| limit := 1; batches := [1; 2; 3]%nat; operations := 1 |}.

Definition three_handles_store : list (list StagedCall) :=
  [ []; [call_of sample_set]; [call_of sample_set]; [call_of sample_set] ].

Definition rejected_by (drv : Driver) (h : nat) : Prop :=
  ∃ r, outcome (drv h) = Rejected r.

Definition fulfilled_by (drv : Driver) (h : nat) : Prop :=
  ∃ rs, outcome (drv h) = Fulfilled rs.


(** ** The connection store *)

Lemma stage_snoc (db : Firestore) cur c :
  stage (length db) c (db ++ [cur]) = db ++ [cur ++ [c]].
Proof.
  unfold stage.
  rewrite <- (Nat.add_0_r (length db)) at 1.
  by rewrite alter_app_r.
Qed.

Lemma stage_lookup_ne (db : Firestore) b c i :
  b ≠ i → stage b c db !! i = db !! i.
Proof. intros Hne. unfold stage. by rewrite list_lookup_alter_ne. Qed.

Lemma stage_lookup_eq (db : Firestore) b c cur :
  db !! b = Some cur → stage b c db !! b = Some (cur ++ [c]).
Proof. intros Hb. unfold stage. by rewrite list_lookup_alter_eq, Hb. Qed.

Lemma stage_length (db : Firestore) b c : length (stage b c db) = length db.
Proof. unfold stage. apply length_alter. Qed.

(** ** The mutators *)

Lemma enqueue_stage op mb db :
  enqueue op (mb, db) = stage_on_target (call_of op) mb db.
Proof. by destruct op as [ref|ref data [| |o]|ref data]. Qed.

Lemma stage_on_target_room c mb db h :
  operations mb < limit mb → last (batches mb) = Some h →
  stage_on_target c mb db
  = Normal ({| limit := limit mb; batches := batches mb;
               operations := operations mb + 1 |}, stage h c db).
Proof.
  intros Hlt Hlast. unfold stage_on_target, getBatch.
  apply Z.ltb_lt in Hlt. by rewrite Hlt, Hlast.
Qed.

Lemma stage_on_target_full c mb db :
  limit mb ≤ operations mb →
  stage_on_target c mb db
  = Normal ({| limit := limit mb; batches := batches mb ++ [length db];
               operations := 1 |}, db ++ [[c]]).
Proof.
  intros Hge. unfold stage_on_target, getBatch, batch.
  apply Z.ltb_ge in Hge. rewrite Hge. cbn.
  by rewrite (stage_snoc db [] c).
Qed.

Lemma enqueue_all_app ops1 ops2 st :
  enqueue_all (ops1 ++ ops2) st
  = match enqueue_all ops1 st with
    | Normal st' => enqueue_all ops2 st'
    | Throw e => Throw e
    end.
Proof.
  revert st. induction ops1 as [|op ops1 IH]; intros st; cbn; [done|].
  destruct (enqueue op st); [apply IH | done].
Qed.

Lemma constructor_round limit_arg (db0 : Firestore) :
  ∃ L, constructor limit_arg db0 = Normal (round_state L db0 [] [])
       ∧ L = Z.min (default BATCH_LIMIT limit_arg) BATCH_LIMIT.
Proof.
  eexists. split; [reflexivity|].
  destruct limit_arg as [l|]; cbn; unfold BATCH_LIMIT;
    destruct (Z.ltb_spec l 500) || idtac; lia.
Qed.

Example five_sets_limit_two :
  session (Some 2) (replicate 5 sample_set) []
  = Normal ({| limit := 2; batches := [0; 1; 2]%nat; operations := 1 |},
            [ replicate 2 (call_of sample_set);
              replicate 2 (call_of sample_set);
              replicate 1 (call_of sample_set) ]).
Proof. reflexivity. Qed.

Example thousand_deletes_default_limit :
  session None (replicate 1000 (op_delete "test/doc"%string)) []
  = Normal ({| limit := 500; batches := [0; 1]%nat; operations := 500 |},
            replicate 2 (replicate 500 (call_delete "test/doc"%string))).
Proof. vm_compute. reflexivity. Qed.

Example three_handles_reached :
  session (Some 1) (replicate 3 sample_set) [[]]
  = Normal (three_handles, three_handles_store).
Proof. reflexivity. Qed.

Example second_of_three_fails :
  commit (only_fails 2 "PERMISSION_DENIED"%string)
    three_handles three_handles_store
  = (Rejected "PERMISSION_DENIED"%string, three_handles, three_handles_store).
Proof. reflexivity. Qed.

Example set_with_null_options :
  set "test/doc"%string [] arg_null three_handles three_handles_store
  = set "test/doc"%string [] arg_undefined three_handles three_handles_store.
Proof. reflexivity. Qed.

(** ** One round of operations *)

Lemma last_batches_round (b n : nat) : last (seq b (S n)) = Some (b + n)%nat.
Proof. rewrite seq_S. apply last_snoc. Qed.

(** One mutator call inside a round: the call goes to the last handle, or,
    when that one is full, to a new handle appended after it. *)
Lemma enqueue_round L (db0 : Firestore) full cur op :
  0 < L → chunks_ok L full cur →
  ∃ full' cur',
    enqueue op (round_state L db0 full cur)
    = Normal (round_state L db0 full' cur')
    ∧ chunks_ok L full' cur'
    ∧ ((full' = full ∧ cur' = cur ++ [call_of op])
       ∨ (full' = full ++ [cur] ∧ cur' = [call_of op])).
Proof.
  intros HL (Hfull & Hcur & Hemp).
  unfold round_state. rewrite enqueue_stage.
  destruct (Z.lt_ge_cases (Z.of_nat (length cur)) L) as [Hroom|Hnoroom].
  - exists full, (cur ++ [call_of op]). split; [|split].
    + erewrite stage_on_target_room;
        [|exact Hroom|apply last_batches_round]. cbn.
      rewrite (app_assoc db0 full [cur]), <- length_app, stage_snoc.
      rewrite length_app, <- app_assoc. cbn. do 3 f_equal. lia.
    + repeat split; [done| rewrite length_app; cbn; lia |].
      intros Habs. by destruct cur.
    + by left.
  - exists (full ++ [cur]), [call_of op]. split; [|split].
    + rewrite stage_on_target_full by done. cbn [limit batches operations].
      f_equal. f_equal; [|by rewrite <- !app_assoc].
      f_equal. rewrite !length_app. cbn [length].
      replace (S (length full + 1)) with (S (S (length full))) by lia.
      rewrite (seq_S (S (length full))). do 2 f_equal. lia.
    + repeat split; [|cbn; lia|done].
      apply Forall_app. split; [done|]. apply Forall_singleton. lia.
    + by right.
Qed.

Lemma enqueue_all_round L (db0 : Firestore) ops : ∀ full cur,
  0 < L → chunks_ok L full cur →
  ∃ full' cur',
    enqueue_all ops (round_state L db0 full cur)
    = Normal (round_state L db0 full' cur')
    ∧ chunks_ok L full' cur'
    ∧ concat full' ++ cur' = (concat full ++ cur) ++ map call_of ops.
Proof.
  induction ops as [|op ops IH]; intros full cur HL Hok.
  - exists full, cur. cbn. by rewrite app_nil_r.
  - destruct (enqueue_round L db0 full cur op HL Hok)
      as (full1 & cur1 & Hstep & Hok1 & Hshape).
    destruct (IH full1 cur1 HL Hok1) as (full' & cur' & Hrest & Hok' & Hcat).
    exists full', cur'. cbn [enqueue_all]. rewrite Hstep.
    split; [done|split; [done|]].
    rewrite Hcat. cbn [map].
    destruct Hshape as [[-> ->]|[-> ->]].
    + by rewrite <- !app_assoc.
    + rewrite concat_app. cbn. by rewrite app_nil_r, <- !app_assoc.
Qed.

Lemma chunks_ok_nil L : chunks_ok L [] [].
Proof. repeat split; [constructor | cbn; lia]. Qed.

Lemma length_concat_uniform {A} (l : nat) (full : list (list A)) :
  Forall (λ b, length b = l) full →
  length (concat full) = (length full * l)%nat.
Proof.
  induction 1 as [|b full Hb _ IH]; cbn; [done|].
  rewrite length_app, IH, Hb. lia.
Qed.

(** The number of handles of a round in terms of the number of calls. *)
Lemma round_handle_count L full (cur : list StagedCall) :
  0 < L → chunks_ok L full cur →
  Z.of_nat (S (length full))
  = Z.max 1 (ceil_div (Z.of_nat (length (concat full ++ cur))) L).
Proof.
  intros HL (Hfull & Hcur & Hemp).
  rewrite length_app, (length_concat_uniform _ _ Hfull).
  unfold ceil_div.
  destruct cur as [|c cur].
  - rewrite (Hemp eq_refl). cbn. rewrite Z.mod_0_l, Z.div_0_l by lia.
    cbn. lia.
  - set (f := length full) in *. set (k := length (c :: cur)) in *.
    assert (1 ≤ Z.of_nat k) by (subst k; cbn; lia).
    assert (Hk : Z.of_nat k ≤ L) by lia.
    replace (Z.of_nat (f * Z.to_nat L + k)) with (Z.of_nat k + Z.of_nat f * L)
      by lia.
    rewrite Z.mod_add, Z.div_add by lia.
    destruct (Z.eq_dec (Z.of_nat k) L) as [Heq|Hne].
    + rewrite Heq, Z.mod_same, Z.div_same by lia. cbn. lia.
    + rewrite Z.mod_small, Z.div_small by lia.
      destruct (Z.eqb_spec (Z.of_nat k) 0); lia.
Qed.

Lemma lookup_concat_uniform {A} (l : nat) (full : list (list A)) cur : ∀ k c,
  (0 < l)%nat → Forall (λ b, length b = l) full → (length cur ≤ l)%nat →
  (concat full ++ cur) !! k = Some c →
  ∃ chunk, (full ++ [cur]) !! (k / l)%nat = Some chunk
           ∧ chunk !! (k mod l)%nat = Some c.
Proof.
  intros k c Hl Hfull. revert k.
  induction Hfull as [|b full Hb _ IH]; intros k Hcur Hk; cbn in Hk.
  - apply lookup_lt_Some in Hk as Hlt.
    exists cur. rewrite Nat.div_small, Nat.mod_small by lia. done.
  - rewrite <- app_assoc in Hk.
    destruct (Nat.lt_ge_cases k l) as [Hlt|Hge].
    + rewrite lookup_app_l in Hk by lia.
      exists b. rewrite Nat.div_small, Nat.mod_small by lia. done.
    + rewrite lookup_app_r in Hk by lia. rewrite Hb in Hk.
      destruct (IH (k - l)%nat Hcur Hk) as (chunk & Hchunk & Hpos).
      exists chunk.
      replace k with ((k - l) + 1 * l)%nat at 1 2 by lia.
      rewrite Nat.div_add, Nat.Div0.mod_add by lia.
      rewrite Nat.add_1_r. done.
Qed.

Lemma round_start_fresh st :
  round_start st → ∃ db0, st = round_state (limit (fst st)) db0 [] [].
Proof.
  intros [limit_arg db0 st0 Hnew|drv mb db v mb' db' Hcommit].
  - exists db0. destruct (constructor_round limit_arg db0) as (L & HL & _).
    rewrite HL in Hnew. by injection Hnew as <-.
  - exists db. unfold commit in Hcommit.
    destruct (Promise_all _); [|done]. by injection Hcommit as _ <- <-.
Qed.

(** What one more call leaves alone: every handle of [batches] other than
    the last one. *)
Lemma round_frame (db0 : Firestore) full cur full' cur' i (h : StagedCall) :
  (full' = full ∧ cur' = cur ++ [h]) ∨ (full' = full ++ [cur] ∧ cur' = [h]) →
  (i < length full')%nat →
  (db0 ++ full' ++ [cur']) !! (length db0 + i)%nat
  = (db0 ++ full ++ [cur]) !! (length db0 + i)%nat.
Proof.
  intros Hshape Hi.
  rewrite !(lookup_app_r db0) by lia.
  replace (length db0 + i - length db0)%nat with i by lia.
  destruct Hshape as [[-> ->]|[-> ->]].
  - by rewrite !lookup_app_l by done.
  - by rewrite lookup_app_l by done.
Qed.

(** ** Settled claims about rounds *)

(** C1.  For every positive limit L (the [limit] of the constructed object:
    the supplied limit capped at 500, or 500 when none is supplied) and every
    sequence of N delete/set/update calls on a freshly constructed object,
    all calls return and [batches] then holds max(1, ceil(N / L)) handles. *)
Theorem handle_count_ceil (limit_arg : option Z) (ops : list Operation)
    (db0 : Firestore) :
  0 < default BATCH_LIMIT limit_arg →
  ∃ mb db,
    session limit_arg ops db0 = Normal (mb, db)
    ∧ limit mb = Z.min (default BATCH_LIMIT limit_arg) BATCH_LIMIT
    ∧ Z.of_nat (length (batches mb))
      = Z.max 1 (ceil_div (Z.of_nat (length ops)) (limit mb)).
Proof.
  intros Hpos. unfold session.
  destruct (constructor_round limit_arg db0) as (L & -> & HL).
  assert (0 < L) by (unfold BATCH_LIMIT in *; lia).
  destruct (enqueue_all_round L db0 ops [] []) as (full & cur & -> & Hok & Hcat);
    [done|apply chunks_ok_nil|].
  eexists _, _. split; [reflexivity|]. cbn [limit batches round_state fst].
  split; [done|].
  rewrite length_seq, (round_handle_count L full cur) by done.
  rewrite Hcat. cbn. by rewrite length_map.
Qed.

Lemma handle_count_ceil_witness :
  ∃ mb db,
    session (Some 2) (replicate 5 sample_set) [] = Normal (mb, db)
    ∧ limit mb = 2
    ∧ Z.of_nat (length (batches mb)) = 3.
Proof.
  destruct (handle_count_ceil (Some 2) (replicate 5 sample_set) [])
    as (mb & db & Hrun & Hlimit & Hcount); [cbn; lia|].
  exists mb, db. rewrite Hcount, Hlimit.
  split; [exact Hrun|]. split; reflexivity.
Defined.

(** C2.  In a round that starts at construction or at a successful commit,
    with a positive limit L, all calls return, the k-th call (counted from
    1) is staged on the handle at index floor((k-1)/L) of [batches], at
    position (k-1) mod L of that handle, and any further call leaves every
    handle of [batches] other than the last one as it was. *)
Theorem arrival_order_placement (st0 : State) (ops : list Operation) :
  round_start st0 → 0 < limit (fst st0) →
  ∃ mb db,
    enqueue_all ops st0 = Normal (mb, db)
    ∧ (∀ k op, (1 ≤ k)%nat → ops !! (k - 1)%nat = Some op →
         ∃ h calls,
           batches mb !! ((k - 1) / Z.to_nat (limit (fst st0)))%nat = Some h
           ∧ db !! h = Some calls
           ∧ calls !! ((k - 1) mod Z.to_nat (limit (fst st0)))%nat
             = Some (call_of op))
    ∧ (∀ op, ∃ mb' db',
         enqueue op (mb, db) = Normal (mb', db')
         ∧ ∀ i h, batches mb' !! i = Some h →
                  (S i < length (batches mb'))%nat →
                  db' !! h = db !! h).
Proof.
  intros Hstart HL.
  destruct (round_start_fresh st0 Hstart) as (db0 & Hst0).
  set (L := limit (fst st0)) in *. rewrite Hst0. clearbody L. clear Hst0 Hstart.
  destruct (enqueue_all_round L db0 ops [] []) as (full & cur & -> & Hok & Hcat);
    [done|apply chunks_ok_nil|].
  cbn [concat app] in Hcat.
  eexists _, _. split; [reflexivity|]. split.
  - cbn [batches]. intros k op Hk Hop.
    assert (Hc : (concat full ++ cur) !! (k - 1)%nat = Some (call_of op)).
    { rewrite Hcat, list_lookup_fmap, Hop. done. }
    destruct Hok as (Hfull & Hcur & _).
    apply lookup_concat_uniform with (l := Z.to_nat L) in Hc
      as (chunk & Hchunk & Hpos); [|lia|done|done].
    apply lookup_lt_Some in Hchunk as Hlt. rewrite length_app in Hlt.
    cbn in Hlt.
    exists (length db0 + (k - 1) / Z.to_nat L)%nat, chunk.
    split; [apply lookup_seq_lt; lia|]. split; [|done].
    rewrite lookup_app_r by lia. rewrite <- Hchunk. f_equal. lia.
  - intros op. fold (round_state L db0 full cur).
    destruct (enqueue_round L db0 full cur op HL Hok)
      as (full' & cur' & -> & _ & Hshape).
    eexists _, _. split; [reflexivity|]. cbn [batches round_state].
    intros i h Hh Hi. rewrite length_seq in Hi.
    apply lookup_seq in Hh as [-> _].
    apply (round_frame db0 full cur full' cur' i (call_of op) Hshape). lia.
Qed.

Lemma arrival_order_placement_witness :
  ∃ mb db,
    enqueue_all (replicate 5 sample_set)
      ({| limit := 2; batches := [0%nat]; operations := 0 |}, [[]])
    = Normal (mb, db)
    ∧ ∃ h calls, batches mb !! 2%nat = Some h
                 ∧ db !! h = Some calls
                 ∧ calls !! 0%nat = Some (call_of sample_set).
Proof.
  destruct (arrival_order_placement
              ({| limit := 2; batches := [0%nat]; operations := 0 |}, [[]])
              (replicate 5 sample_set))
    as (mb & db & Hrun & Hplace & _).
  - exact (start_constructed (Some 2) [] _ eq_refl).
  - cbn. lia.
  - exists mb, db. split; [exact Hrun|].
    exact (Hplace 5%nat sample_set ltac:(lia) eq_refl).
Defined.

(** ** The invariants *)

Lemma fields_inv_constructor limit_arg (db0 : Firestore) mb db :
  constructor limit_arg db0 = Normal (mb, db) → 0 < limit mb → fields_inv mb.
Proof.
  destruct (constructor_round limit_arg db0) as (L & -> & _).
  intros [= <- <-] HL. split; cbn in *; [done|lia].
Qed.

Lemma fields_inv_enqueue op mb (db : Firestore) :
  0 < limit mb → fields_inv mb →
  ∃ mb' db', enqueue op (mb, db) = Normal (mb', db')
             ∧ limit mb' = limit mb ∧ fields_inv mb'.
Proof.
  intros HL [Hne Hops]. rewrite enqueue_stage.
  destruct (Z.lt_ge_cases (operations mb) (limit mb)) as [Hroom|Hnoroom].
  - destruct (last (batches mb)) as [h|] eqn:Hlast;
      [|by apply last_None in Hlast].
    rewrite (stage_on_target_room _ _ _ h) by done.
    eexists _, _. split; [reflexivity|]. split; [done|].
    split; cbn; [done|lia].
  - rewrite stage_on_target_full by done.
    eexists _, _. split; [reflexivity|]. split; [done|].
    split; cbn; [|lia]. by destruct (batches mb).
Qed.

Lemma commit_fulfilled drv mb (db : Firestore) v mb' db' :
  commit drv mb db = (Fulfilled v, mb', db') →
  v = void
  ∧ mb' = {| limit := limit mb; batches := [length db]; operations := 0 |}
  ∧ db' = db ++ [[]].
Proof.
  unfold commit. destruct (Promise_all _); [|done]. by intros [= <- <- <-].
Qed.

Lemma commit_rejected drv mb (db : Firestore) r mb' db' :
  commit drv mb db = (Rejected r, mb', db') → mb' = mb ∧ db' = db.
Proof.
  unfold commit. destruct (Promise_all _); [done|]. by intros [= _ <- <-].
Qed.

Lemma capacity_inv_fresh L n0 (db : Firestore) :
  0 < L →
  (∀ i b, (n0 ≤ i)%nat → db !! i = Some b → Z.of_nat (length b) ≤ L) →
  capacity_inv L n0
    ({| limit := L; batches := [length db]; operations := 0 |}, db ++ [[]]).
Proof.
  intros HL Hold. repeat split; cbn; try lia.
  - exists [], (length db), []. repeat split.
    + apply not_elem_of_nil.
    + by apply list_lookup_middle.
  - apply Forall_singleton. rewrite length_app. cbn. lia.
  - intros i b Hi Hb. apply lookup_app_Some in Hb as [Hb|[_ Hb]].
    + by apply (Hold i).
    + apply list_lookup_singleton_Some in Hb as [_ <-]. cbn. lia.
Qed.

Lemma capacity_inv_constructor limit_arg (db0 : Firestore) st :
  constructor limit_arg db0 = Normal st → 0 < limit (fst st) →
  capacity_inv (limit (fst st)) (length db0) st.
Proof.
  destruct (constructor_round limit_arg db0) as (L & -> & _).
  intros [= <-] HL.
  apply (capacity_inv_fresh L (length db0) db0 HL).
  intros i b Hi Hb. apply lookup_lt_Some in Hb. lia.
Qed.

Lemma capacity_inv_enqueue L n0 op st :
  0 < L → capacity_inv L n0 st →
  ∃ st', enqueue op st = Normal st' ∧ capacity_inv L n0 st'.
Proof.
  destruct st as [mb db]. cbn [capacity_inv fst snd].
  intros HL (Hlim & Hops & (init & h & cur & Hb & Hnin & Hcur & Hlen)
             & Hvalid & Hcap).
  unfold capacity_inv in *. cbn [fst snd] in *. rewrite enqueue_stage.
  destruct (Z.lt_ge_cases (operations mb) (limit mb)) as [Hroom|Hnoroom].
  - rewrite (stage_on_target_room _ _ _ h);
      [|done|rewrite Hb; apply last_snoc].
    eexists. split; [reflexivity|]. cbn [fst snd limit batches operations].
    split; [done|]. split; [lia|]. split; [|split].
    + exists init, h, (cur ++ [call_of op]). repeat split; [done..| |].
      * by apply stage_lookup_eq.
      * rewrite length_app. cbn. lia.
    + by rewrite stage_length.
    + intros i b Hi Hib. destruct (decide (h = i)) as [<-|Hne].
      * rewrite (stage_lookup_eq _ _ _ cur) in Hib by done.
        injection Hib as <-. rewrite length_app. cbn. lia.
      * rewrite stage_lookup_ne in Hib by done. by apply (Hcap i).
  - rewrite stage_on_target_full by done.
    eexists. split; [reflexivity|]. cbn [fst snd limit batches operations].
    split; [done|]. split; [lia|]. split; [|split].
    + exists (batches mb), (length db), [call_of op].
      repeat split; [| by apply list_lookup_middle].
      intros Hin. eapply Forall_forall in Hvalid; [|exact Hin]. cbn in Hvalid. lia.
    + rewrite length_app. cbn. apply Forall_app. split.
      * eapply Forall_impl; [exact Hvalid|]. cbn. intros; lia.
      * apply Forall_singleton. lia.
    + intros i b Hi Hib. apply lookup_app_Some in Hib as [Hib|[_ Hib]].
      * by apply (Hcap i).
      * apply list_lookup_singleton_Some in Hib as [_ <-]. cbn. lia.
Qed.

Lemma capacity_inv_commit L n0 drv st :
  0 < L → capacity_inv L n0 st →
  capacity_inv L n0 (snd (fst (commit drv (fst st) (snd st))),
                     snd (commit drv (fst st) (snd st))).
Proof.
  destruct st as [mb db]. cbn [fst snd]. intros HL Hinv.
  destruct (commit drv mb db) as [[[v|r] mb'] db'] eqn:Hcommit; cbn [fst snd].
  - apply commit_fulfilled in Hcommit as (_ & -> & ->).
    destruct Hinv as (Hlim & _ & _ & _ & Hcap). cbn [fst snd] in Hlim, Hcap.
    rewrite Hlim. by apply capacity_inv_fresh.
  - by apply commit_rejected in Hcommit as (-> & ->).
Qed.

Lemma capacity_inv_run L n0 script : ∀ st,
  0 < L → capacity_inv L n0 st →
  ∃ st', run script st = Normal st' ∧ capacity_inv L n0 st'.
Proof.
  induction script as [|[op|drv] script IH]; intros st HL Hinv; cbn [run].
  - by exists st.
  - destruct (capacity_inv_enqueue L n0 op st HL Hinv) as (st1 & -> & Hinv1).
    by apply IH.
  - pose proof (capacity_inv_commit L n0 drv st HL Hinv) as Hinv1.
    destruct (commit drv (fst st) (snd st)) as [[v mb'] db'].
    by apply IH.
Qed.

(** C3.  For every positive limit L: the constructor establishes the
    invariant "[batches] is non-empty and 0 <= operations <= L"; every
    delete, set and update call returns and preserves it; every successful
    commit preserves it; and, whatever calls and commits follow the
    construction, no handle created since then ever holds more than L
    calls. *)
Theorem limit_invariant (L : Z) :
  0 < L →
  (∀ limit_arg (db0 : Firestore) mb db,
     constructor limit_arg db0 = Normal (mb, db) → limit mb = L →
     fields_inv mb)
  ∧ (∀ op mb (db : Firestore),
       limit mb = L → fields_inv mb →
       ∃ mb' db', enqueue op (mb, db) = Normal (mb', db')
                  ∧ limit mb' = L ∧ fields_inv mb')
  ∧ (∀ drv mb (db : Firestore) v mb' db',
       limit mb = L → fields_inv mb →
       commit drv mb db = (Fulfilled v, mb', db') →
       limit mb' = L ∧ fields_inv mb')
  ∧ (∀ limit_arg (db0 : Firestore) st0 script,
       constructor limit_arg db0 = Normal st0 → limit (fst st0) = L →
       ∃ mb db,
         run script st0 = Normal (mb, db)
         ∧ limit mb = L ∧ fields_inv mb
         ∧ ∀ h calls, (length db0 ≤ h)%nat → db !! h = Some calls →
                      Z.of_nat (length calls) ≤ L).
Proof.
  intros HL. split; [|split; [|split]].
  - intros limit_arg db0 mb db Hnew Hlim.
    apply (fields_inv_constructor limit_arg db0 mb db Hnew). lia.
  - intros op mb db Hlim Hinv.
    destruct (fields_inv_enqueue op mb db) as (mb' & db' & Hstep & Hlim' & Hinv');
      [lia|done|].
    exists mb', db'. split; [done|]. split; [congruence|done].
  - intros drv mb db v mb' db' Hlim Hinv Hcommit.
    apply commit_fulfilled in Hcommit as (_ & -> & _).
    split; [done|]. split; cbn; [done|lia].
  - intros limit_arg db0 st0 script Hnew Hlim.
    pose proof (capacity_inv_constructor limit_arg db0 st0 Hnew) as Hinv0.
    rewrite Hlim in Hinv0. specialize (Hinv0 HL).
    destruct (capacity_inv_run L (length db0) script st0 HL Hinv0)
      as ([mb db] & Hrun & Hlim' & Hops & (init & h & cur & Hb & _) & _ & Hcap).
    cbn [fst snd] in *. exists mb, db. split; [done|]. split; [done|].
    split; [|exact Hcap].
    split; [|lia]. rewrite Hb. by destruct init.
Qed.

Lemma limit_invariant_witness :
  fields_inv {| limit := 2; batches := [0%nat]; operations := 0 |}
  ∧ ∃ mb db,
      run (replicate 5 (act_enqueue sample_set)
           ++ [act_commit all_ok; act_enqueue sample_set])
        ({| limit := 2; batches := [0%nat]; operations := 0 |}, [[]])
      = Normal (mb, db)
      ∧ ∀ h calls, (0 ≤ h)%nat → db !! h = Some calls →
                   Z.of_nat (length calls) ≤ 2.
Proof.
  destruct (limit_invariant 2) as (Hnew & _ & _ & Hrun); [lia|]. split.
  - exact (Hnew (Some 2) [] _ [[]] eq_refl eq_refl).
  - destruct (Hrun (Some 2) [] _
                (replicate 5 (act_enqueue sample_set)
                 ++ [act_commit all_ok; act_enqueue sample_set])
                eq_refl eq_refl) as (mb & db & Hres & _ & _ & Hcap).
    exists mb, db. split; [exact Hres|exact Hcap].
Defined.

(** ** Commit *)

Lemma first_rejection_spec (drv : Driver) (hs : list nat) :
  match first_rejection (map drv hs) with
  | None => Forall (fulfilled_by drv) hs
  | Some (t, r) =>
      ∃ h, h ∈ hs ∧ tick (drv h) = t ∧ outcome (drv h) = Rejected r
           ∧ ∀ h', h' ∈ hs → rejected_by drv h' → (t ≤ tick (drv h'))%nat
  end.
Proof.
  induction hs as [|h hs IH]; cbn [map first_rejection]; [constructor|].
  destruct (outcome (drv h)) as [rs|r] eqn:Hout.
  - destruct (first_rejection (map drv hs)) as [[t r]|].
    + destruct IH as (h0 & Hin & Ht & Hr & Hmin).
      exists h0. split; [by right|]. split; [done|]. split; [done|].
      intros h' [->|Hin']%elem_of_cons [r' Hr'];
        [congruence|]. apply Hmin; [done|by exists r'].
    + constructor; [by exists rs|done].
  - destruct (first_rejection (map drv hs)) as [[t r']|].
    + destruct IH as (h0 & Hin & Ht & Hr & Hmin).
      destruct (Nat.leb_spec (tick (drv h)) t) as [Hle|Hgt].
      * exists h. split; [by left|]. split; [done|]. split; [done|].
        intros h' [->|Hin']%elem_of_cons Hrej; [lia|].
        specialize (Hmin h' Hin' Hrej). lia.
      * exists h0. split; [by right|]. split; [done|]. split; [done|].
        intros h' [->|Hin']%elem_of_cons Hrej; [lia|].
        by apply Hmin.
    + exists h. split; [by left|]. split; [done|]. split; [done|].
      intros h' [->|Hin']%elem_of_cons [r' Hrej]; [lia|].
      eapply Forall_forall in IH; [|exact Hin'].
      destruct IH as [rs Hrs]. congruence.
Qed.

Lemma Promise_all_fulfilled (drv : Driver) (hs : list nat) :
  Forall (fulfilled_by drv) hs →
  Promise_all (map drv hs) = Fulfilled (fulfilled_values (map drv hs)).
Proof.
  intros Hall. unfold Promise_all.
  pose proof (first_rejection_spec drv hs) as Hspec.
  destruct (first_rejection (map drv hs)) as [[t r]|]; [|done].
  destruct Hspec as (h & Hin & _ & Hr & _).
  eapply Forall_forall in Hall; [|exact Hin].
  destruct Hall as [rs Hrs]. congruence.
Qed.

Lemma Promise_all_rejected (drv : Driver) (hs : list nat) :
  Exists (rejected_by drv) hs →
  ∃ h r, Promise_all (map drv hs) = Rejected r
         ∧ h ∈ hs ∧ outcome (drv h) = Rejected r
         ∧ ∀ h', h' ∈ hs → rejected_by drv h' →
                 (tick (drv h) ≤ tick (drv h'))%nat.
Proof.
  intros Hex. unfold Promise_all.
  pose proof (first_rejection_spec drv hs) as Hspec.
  destruct (first_rejection (map drv hs)) as [[t r]|].
  - destruct Hspec as (h & Hin & <- & Hr & Hmin). by exists h, r.
  - apply Exists_exists in Hex as (h & Hin & [r Hr]).
    eapply Forall_forall in Hspec; [|exact Hin].
    destruct Hspec as [rs Hrs]. congruence.
Qed.

(** C5.  When the commit of every handle in [batches] succeeds, [commit]
    succeeds, [batches] becomes one handle that the connection had not handed
    out before and that holds no call, [operations] becomes 0 and the limit is
    kept; the object then takes a new round of calls as a new object does:
    all calls return and, for a positive limit L, N of them leave
    max(1, ceil(N / L)) handles. *)
Theorem commit_success_resets drv mb (db : Firestore) :
  Forall (fulfilled_by drv) (batches mb) →
  ∃ v,
    commit drv mb db
    = (Fulfilled v,
       {| limit := limit mb; batches := [length db]; operations := 0 |},
       db ++ [[]])
    ∧ db !! length db = None
    ∧ (db ++ [[]]) !! length db = Some []
    ∧ (0 < limit mb → ∀ ops, ∃ mb' db',
         enqueue_all ops
           ({| limit := limit mb; batches := [length db]; operations := 0 |},
            db ++ [[]])
         = Normal (mb', db')
         ∧ Z.of_nat (length (batches mb'))
           = Z.max 1 (ceil_div (Z.of_nat (length ops)) (limit mb))).
Proof.
  intros Hall. exists void. split; [|split; [|split]].
  - unfold commit. by rewrite (Promise_all_fulfilled drv (batches mb) Hall).
  - by apply lookup_ge_None.
  - by apply list_lookup_middle.
  - intros HL ops.
    destruct (enqueue_all_round (limit mb) db ops [] [])
      as (full & cur & Hrun & Hok & Hcat); [done|apply chunks_ok_nil|].
    eexists _, _. split; [exact Hrun|]. cbn [batches].
    rewrite length_seq, (round_handle_count (limit mb) full cur) by done.
    rewrite Hcat. cbn. by rewrite length_map.
Qed.

Lemma commit_success_resets_witness :
  ∃ v,
    commit all_ok three_handles three_handles_store
    = (Fulfilled v,
       {| limit := 1; batches := [4%nat]; operations := 0 |},
       three_handles_store ++ [[]]).
Proof.
  destruct (commit_success_resets all_ok three_handles three_handles_store)
    as (v & Hcommit & _).
  - repeat constructor; by eexists.
  - exists v. exact Hcommit.
Defined.

(** C6.  When the commit of some handle in [batches] fails, [commit] fails
    and leaves [batches] and [operations] (and the limit) as they were. *)
Theorem commit_failure_keeps_state drv mb (db : Firestore) :
  Exists (rejected_by drv) (batches mb) →
  ∃ r, commit drv mb db = (Rejected r, mb, db).
Proof.
  intros Hex.
  destruct (Promise_all_rejected drv (batches mb) Hex) as (h & r & Hall & _).
  exists r. unfold commit. by rewrite Hall.
Qed.

Lemma commit_failure_keeps_state_witness :
  ∃ r,
    commit (only_fails 2 "PERMISSION_DENIED"%string)
      three_handles three_handles_store
    = (Rejected r, three_handles, three_handles_store).
Proof.
  apply (commit_failure_keeps_state (only_fails 2 "PERMISSION_DENIED"%string)
           three_handles three_handles_store).
  apply Exists_cons_tl, Exists_cons_hd. by eexists.
Defined.

(** C7, as the code has it.  When the commit of some handle in [batches]
    fails, [commit] fails, and the failure it reports is the rejection
    reason of one of the failing handles, the first of them to settle, passed
    on as the driver gave it. *)
Theorem commit_failure_reason drv mb (db : Firestore) :
  Exists (rejected_by drv) (batches mb) →
  ∃ h r,
    fst (fst (commit drv mb db)) = Rejected r
    ∧ h ∈ batches mb
    ∧ outcome (drv h) = Rejected r
    ∧ ∀ h', h' ∈ batches mb → rejected_by drv h' →
            (tick (drv h) ≤ tick (drv h'))%nat.
Proof.
  intros Hex.
  destruct (Promise_all_rejected drv (batches mb) Hex)
    as (h & r & Hall & Hin & Hr & Hmin).
  exists h, r. unfold commit. by rewrite Hall.
Qed.

Lemma commit_failure_reason_witness :
  ∃ h r,
    fst (fst (commit (only_fails 2 "PERMISSION_DENIED"%string)
                three_handles three_handles_store)) = Rejected r
    ∧ h ∈ batches three_handles
    ∧ outcome (only_fails 2 "PERMISSION_DENIED"%string h) = Rejected r.
Proof.
  destruct (commit_failure_reason (only_fails 2 "PERMISSION_DENIED"%string)
              three_handles three_handles_store)
    as (h & r & Hres & Hin & Hr & _).
  - apply Exists_cons_tl, Exists_cons_hd. by eexists.
  - exists h, r. split; [exact Hres|]. split; [exact Hin|exact Hr].
Defined.

(** C7 as stated fails: with three handles, the reported failure is the same
    whether the second or the third handle is the one that fails, so nothing
    computed from it tells which handle failed. *)
Lemma failure_does_not_identify_handle :
  ¬ ∃ identify : Outcome CommitValue → nat,
      ∀ h r, h ∈ batches three_handles →
        identify (fst (fst (commit (only_fails h r)
                              three_handles three_handles_store))) = h.
Proof.
  intros (identify & Hid).
  assert (H2 : (2 ∈ batches three_handles)%nat) by (right; left).
  assert (H3 : (3 ∈ batches three_handles)%nat) by (right; right; left).
  apply (Hid _ "PERMISSION_DENIED"%string) in H2, H3.
  vm_compute in H2, H3. congruence.
Qed.

(** C10.  Whenever [commit] succeeds its value is void, whatever result
    lists the commits of the handles produced; in particular it is void when
    [Promise.all] over the handles' commits is fulfilled with [results]. *)
Theorem commit_resolves_void drv mb (db : Firestore) results :
  Promise_all (map drv (batches mb)) = Fulfilled results →
  fst (fst (commit drv mb db)) = Fulfilled void
  ∧ ∀ v, fst (fst (commit drv mb db)) = Fulfilled v →
         v = void ∧ v ≠ write_results results.
Proof.
  intros Hall. unfold commit. rewrite Hall. cbn.
  split; [done|]. by intros v [= <-].
Qed.

Lemma commit_resolves_void_witness :
  fst (fst (commit all_ok three_handles three_handles_store)) = Fulfilled void.
Proof.
  apply (commit_resolves_void all_ok three_handles three_handles_store
           (replicate 3 [ {| writeTime := 1 |} ])).
  reflexivity.
Defined.

(** ** Calls received by the handles *)

(** A mutator call on an object whose handles are handles of the connection:
    the call returns, the last handle of [batches] has received [c] as its
    latest call, and the handles of the object still are handles of the
    connection. *)
Lemma stage_on_target_receives c mb (db : Firestore) :
  handles_valid (mb, db) →
  ∃ mb' db' h before,
    stage_on_target c mb db = Normal (mb', db')
    ∧ last (batches mb') = Some h
    ∧ db' !! h = Some (before ++ [c])
    ∧ handles_valid (mb', db').
Proof.
  intros [Hne Hvalid]. cbn [fst snd] in *.
  destruct (Z.lt_ge_cases (operations mb) (limit mb)) as [Hroom|Hnoroom].
  - destruct (last (batches mb)) as [h|] eqn:Hlast;
      [|by apply last_None in Hlast].
    assert (Hh : (h < length db)%nat).
    { apply last_Some_elem_of in Hlast.
      by eapply Forall_forall in Hvalid; [|exact Hlast]. }
    apply lookup_lt_is_Some in Hh as [before Hbefore].
    rewrite (stage_on_target_room _ _ _ h) by done.
    eexists _, _, h, before. split; [reflexivity|]. split; [done|].
    split; [by apply stage_lookup_eq|].
    split; cbn [fst snd batches]; [done|by rewrite stage_length].
  - rewrite stage_on_target_full by done.
    eexists _, _, (length db), []. split; [reflexivity|]. cbn [batches].
    split; [apply last_snoc|]. split; [by apply list_lookup_middle|].
    split; cbn [fst snd batches]; [by destruct (batches mb)|].
    rewrite length_app. cbn. apply Forall_app. split.
    + eapply Forall_impl; [exact Hvalid|]. cbn. intros; lia.
    + apply Forall_singleton. lia.
Qed.

Lemma handles_valid_fresh L (db : Firestore) :
  handles_valid
    ({| limit := L; batches := [length db]; operations := 0 |}, db ++ [[]]).
Proof.
  split; cbn; [done|]. apply Forall_singleton. rewrite length_app. cbn. lia.
Qed.

Lemma handles_valid_run script : ∀ st,
  handles_valid st → ∃ st', run script st = Normal st' ∧ handles_valid st'.
Proof.
  induction script as [|[op|drv] script IH]; intros [mb db] Hvalid; cbn [run].
  - by eexists.
  - rewrite enqueue_stage.
    destruct (stage_on_target_receives (call_of op) mb db Hvalid)
      as (mb' & db' & _ & _ & -> & _ & _ & Hvalid').
    by apply IH.
  - cbn [fst snd].
    destruct (commit drv mb db) as [[[v|r] mb'] db'] eqn:Hcommit; apply IH.
    + apply commit_fulfilled in Hcommit as (_ & -> & ->).
      apply handles_valid_fresh.
    + by apply commit_rejected in Hcommit as (-> & ->).
Qed.

Lemma handles_valid_program limit_arg script (db0 : Firestore) :
  ∃ st, program limit_arg script db0 = Normal st ∧ handles_valid st.
Proof.
  unfold program.
  destruct (constructor_round limit_arg db0) as (L & -> & _).
  apply handles_valid_run, handles_valid_fresh.
Qed.

(** A mutator call changes the store by exactly one call: the target handle
    holds what it held before (nothing, when the call had to open it)
    followed by [c], and every other handle holds what it held. *)
Lemma stage_on_target_adds_one c mb (db : Firestore) :
  handles_valid (mb, db) →
  ∃ mb' db' h,
    stage_on_target c mb db = Normal (mb', db')
    ∧ last (batches mb') = Some h
    ∧ db' !! h = Some (default [] (db !! h) ++ [c])
    ∧ ∀ h', h' ≠ h → db' !! h' = db !! h'.
Proof.
  intros [Hne Hvalid]. cbn [fst snd] in *.
  destruct (Z.lt_ge_cases (operations mb) (limit mb)) as [Hroom|Hnoroom].
  - destruct (last (batches mb)) as [h|] eqn:Hlast;
      [|by apply last_None in Hlast].
    assert (Hh : (h < length db)%nat).
    { apply last_Some_elem_of in Hlast.
      by eapply Forall_forall in Hvalid; [|exact Hlast]. }
    apply lookup_lt_is_Some in Hh as [before Hbefore].
    rewrite (stage_on_target_room _ _ _ h) by done.
    eexists _, _, h. split; [reflexivity|]. split; [done|]. split.
    + rewrite Hbefore. by apply stage_lookup_eq.
    + intros h' Hne'. by apply stage_lookup_ne.
  - rewrite stage_on_target_full by done.
    eexists _, _, (length db). split; [reflexivity|]. cbn [batches].
    split; [apply last_snoc|]. split.
    + rewrite (lookup_ge_None_2 db (length db)) by lia.
      by apply list_lookup_middle.
    + intros h' Hne'. destruct (Nat.lt_ge_cases h' (length db)) as [Hlt|Hge].
      * by apply lookup_app_l.
      * rewrite !lookup_ge_None_2; [done|lia|].
        rewrite length_app. cbn. lia.
Qed.

(** C8.  At any point of the life of an object (after construction and any
    calls and commits): [set] without options returns and adds exactly one
    call to the store, on the target handle, and that call is the
    two-argument [set(ref, data)], which is not the three-argument call with
    any options object (the empty one included); [set] with an options
    object returns and adds exactly one call, the three-argument call with
    that object.  The target handle holds what it held before the call
    followed by the new call, and every other handle holds what it held. *)
Theorem set_options_forwarding limit_arg script (db0 : Firestore)
    (ref : DocumentReference) (data : DocumentData) :
  ∃ mb db,
    program limit_arg script db0 = Normal (mb, db)
    ∧ (∃ mb' db' h,
         set ref data arg_undefined mb db = Normal (mb', db')
         ∧ last (batches mb') = Some h
         ∧ db' !! h = Some (default [] (db !! h) ++ [call_set ref data])
         ∧ (∀ h', h' ≠ h → db' !! h' = db !! h')
         ∧ ∀ o, call_set ref data ≠ call_set_options ref data o)
    ∧ (∀ o, ∃ mb' db' h,
         set ref data (arg_options o) mb db = Normal (mb', db')
         ∧ last (batches mb') = Some h
         ∧ db' !! h
           = Some (default [] (db !! h) ++ [call_set_options ref data o])
         ∧ ∀ h', h' ≠ h → db' !! h' = db !! h').
Proof.
  destruct (handles_valid_program limit_arg script db0) as ([mb db] & Hrun & Hvalid).
  exists mb, db. split; [done|]. split.
  - destruct (stage_on_target_adds_one (call_set ref data) mb db Hvalid)
      as (mb' & db' & h & Hset & Hlast & Hcall & Hframe).
    exists mb', db', h. by repeat split.
  - intros o. cbn [set].
    by apply stage_on_target_adds_one.
Qed.

(** ** Non-positive limits *)

Lemma constructor_keeps_small_limit L (db0 : Firestore) :
  L < BATCH_LIMIT →
  constructor (Some L) db0
  = Normal ({| limit := L; batches := [length db0]; operations := 0 |},
            db0 ++ [[]]).
Proof.
  intros HL. unfold constructor, batch. apply Z.ltb_lt in HL. by rewrite HL.
Qed.

(** With a limit that the counter has reached, every call opens a handle. *)
Lemma enqueue_all_exhausted L (db0 : Firestore) ops : ∀ chunks o,
  L ≤ 0 → L ≤ o →
  enqueue_all ops
    ({| limit := L; batches := seq (length db0) (S (length chunks));
        operations := o |}, db0 ++ [] :: chunks)
  = Normal
      ({| limit := L;
          batches := seq (length db0) (S (length chunks + length ops));
          operations := match ops with [] => o | _ => 1 end |},
       db0 ++ [] :: chunks ++ map (λ op, [call_of op]) ops).
Proof.
  induction ops as [|op ops IH]; intros chunks o HL Ho.
  - cbn. by rewrite Nat.add_0_r, app_nil_r.
  - cbn [enqueue_all]. rewrite enqueue_stage, stage_on_target_full by done.
    cbn [limit batches operations].
    replace (seq (length db0) (S (length chunks))
             ++ [length (db0 ++ [] :: chunks)])
      with (seq (length db0) (S (length (chunks ++ [[call_of op]])))).
    2:{ rewrite !length_app. cbn [length].
        replace (S (length chunks + 1)) with (S (S (length chunks))) by lia.
        by rewrite (seq_S (S (length chunks))). }
    replace ((db0 ++ [] :: chunks) ++ [[call_of op]])
      with (db0 ++ [] :: (chunks ++ [[call_of op]]))
      by (by rewrite <- app_assoc).
    rewrite (IH (chunks ++ [[call_of op]]) 1) by lia.
    rewrite length_app. cbn [length map].
    do 3 f_equal.
    + f_equal. lia.
    + by destruct ops.
    + by rewrite <- app_assoc.
Qed.

(** C9.  With a non-positive limit L the constructor keeps L, and after any
    sequence of calls [batches] holds the constructor's handle, which stays
    empty, followed by one handle per call, each holding exactly that call;
    [operations] is 1 after every call. *)
Theorem nonpositive_limit_one_per_handle L (ops : list Operation)
    (db0 : Firestore) :
  L ≤ 0 →
  ∃ mb db,
    session (Some L) ops db0 = Normal (mb, db)
    ∧ limit mb = L
    ∧ batches mb = seq (length db0) (S (length ops))
    ∧ db = db0 ++ [] :: map (λ op, [call_of op]) ops
    ∧ (ops ≠ [] → operations mb = 1).
Proof.
  intros HL. unfold session.
  rewrite constructor_keeps_small_limit by (unfold BATCH_LIMIT; lia).
  pose proof (enqueue_all_exhausted L db0 ops [] 0 HL HL) as Hrun.
  eexists _, _. split; [exact Hrun|]. cbn [limit batches operations].
  split; [done|]. split; [done|]. split; [done|]. by destruct ops.
Qed.

Lemma nonpositive_limit_one_per_handle_witness :
  ∃ mb db,
    session (Some 0) (replicate 3 sample_set) [] = Normal (mb, db)
    ∧ batches mb = [0; 1; 2; 3]%nat
    ∧ db = [] :: replicate 3 [call_of sample_set]
    ∧ operations mb = 1.
Proof.
  destruct (nonpositive_limit_one_per_handle 0 (replicate 3 sample_set) [])
    as (mb & db & Hrun & _ & Hb & Hdb & Hops); [lia|].
  exists mb, db. split; [exact Hrun|]. split; [exact Hb|].
  split; [exact Hdb|]. apply Hops. discriminate.
Defined.

(** C4, as the code has it.  The constructor raises no error for a
    non-positive limit: it returns an object that keeps that limit, with one
    new handle and no operation counted. *)
Theorem constructor_accepts_nonpositive_limit L (db0 : Firestore) :
  L ≤ 0 →
  constructor (Some L) db0
  = Normal ({| limit := L; batches := [length db0]; operations := 0 |},
            db0 ++ [[]]).
Proof.
  intros HL. apply constructor_keeps_small_limit. unfold BATCH_LIMIT. lia.
Qed.

Lemma constructor_accepts_nonpositive_limit_witness :
  constructor (Some 0) []
  = Normal ({| limit := 0; batches := [0%nat]; operations := 0 |}, [[]]).
Proof.
  apply (constructor_accepts_nonpositive_limit 0 []). lia.
Defined.

(** C4 as stated fails: constructing with limit 0 raises no error. *)
Lemma constructor_zero_limit_no_error :
  ¬ ∃ e, constructor (Some 0) [] = Throw e.
Proof. intros [e He]. discriminate He. Qed.

(** ** Further properties of the class *)

Lemma stage_on_target_limit c mb (db : Firestore) mb' db' :
  stage_on_target c mb db = Normal (mb', db') → limit mb' = limit mb.
Proof.
  unfold stage_on_target, getBatch, batch.
  destruct (operations mb <? limit mb).
  - destruct (last (batches mb)); [|done]. by intros [= <- _].
  - by intros [= <- _].
Qed.

Lemma commit_limit drv mb (db : Firestore) :
  limit (snd (fst (commit drv mb db))) = limit mb.
Proof. unfold commit. by destruct (Promise_all _). Qed.

Lemma run_limit script : ∀ st st',
  run script st = Normal st' → limit (fst st') = limit (fst st).
Proof.
  induction script as [|[op|drv] script IH]; intros [mb db] st'; cbn [run].
  - by intros [= <-].
  - rewrite enqueue_stage.
    destruct (stage_on_target (call_of op) mb db) as [[mb1 db1]|] eqn:Hstep;
      [|done].
    intros Hrun. rewrite (IH _ _ Hrun). cbn [fst].
    by apply stage_on_target_limit in Hstep.
  - cbn [fst snd]. pose proof (commit_limit drv mb db) as Hlim.
    destruct (commit drv mb db) as [[v mb1] db1]. intros Hrun.
    by rewrite (IH _ _ Hrun).
Qed.

Lemma owned_inv_fresh L (old new : list (list StagedCall)) :
  owned_inv old
    ({| limit := L; batches := [length (old ++ new)]; operations := 0 |},
     (old ++ new) ++ [[]]).
Proof.
  split; [|split; [|split]]; cbn [fst snd batches operations].
  - exists (new ++ [[]]). by rewrite app_assoc.
  - apply NoDup_singleton.
  - apply Forall_singleton. rewrite !length_app. cbn. lia.
  - exists (length (old ++ new)), []. split; [done|].
    split; [by apply list_lookup_middle|done].
Qed.

Lemma owned_inv_enqueue old op st :
  owned_inv old st → ∃ st', enqueue op st = Normal st' ∧ owned_inv old st'.
Proof.
  destruct st as [mb db]. unfold owned_inv. cbn [fst snd].
  intros ([new ->] & Hnodup & Hvalid & h & cur & Hlast & Hcur & Hlen).
  rewrite enqueue_stage.
  destruct (Z.lt_ge_cases (operations mb) (limit mb)) as [Hroom|Hnoroom].
  - rewrite (stage_on_target_room _ _ _ h) by done.
    eexists. split; [reflexivity|]. cbn [fst snd batches operations].
    assert (Hh : (length old ≤ h)%nat).
    { apply last_Some_elem_of in Hlast.
      eapply Forall_forall in Hvalid; [|exact Hlast]. cbn in Hvalid. lia. }
    split; [|split; [done|split]].
    + exists (alter (λ calls, calls ++ [call_of op]) (h - length old)%nat new).
      unfold stage. by rewrite alter_app_r_alt.
    + by rewrite stage_length.
    + exists h, (cur ++ [call_of op]). split; [done|].
      split; [by apply stage_lookup_eq|]. rewrite length_app. cbn. lia.
  - rewrite stage_on_target_full by done.
    eexists. split; [reflexivity|]. cbn [fst snd batches operations].
    split; [|split; [|split]].
    + exists (new ++ [[call_of op]]). by rewrite app_assoc.
    + apply NoDup_app. split; [done|]. split; [|apply NoDup_singleton].
      intros x Hx ->%list_elem_of_singleton.
      eapply Forall_forall in Hvalid; [|exact Hx]. cbn in Hvalid. lia.
    + rewrite (length_app (old ++ new)). cbn [length].
      apply Forall_app. split.
      * eapply Forall_impl; [exact Hvalid|]. cbn. intros; lia.
      * apply Forall_singleton. rewrite length_app. lia.
    + exists (length (old ++ new)), [call_of op].
      split; [apply last_snoc|]. split; [by apply list_lookup_middle|done].
Qed.

Lemma owned_inv_commit old drv st :
  owned_inv old st →
  owned_inv old (snd (fst (commit drv (fst st) (snd st))),
                 snd (commit drv (fst st) (snd st))).
Proof.
  destruct st as [mb db]. cbn [fst snd]. intros Hinv.
  destruct (commit drv mb db) as [[[v|r] mb'] db'] eqn:Hcommit; cbn [fst snd].
  - apply commit_fulfilled in Hcommit as (_ & -> & ->).
    destruct Hinv as ([new Hnew] & _). cbn [snd] in Hnew. subst db.
    apply owned_inv_fresh.
  - by apply commit_rejected in Hcommit as (-> & ->).
Qed.

Lemma owned_inv_run old script : ∀ st,
  owned_inv old st → ∃ st', run script st = Normal st' ∧ owned_inv old st'.
Proof.
  induction script as [|[op|drv] script IH]; intros st Hinv; cbn [run].
  - by exists st.
  - destruct (owned_inv_enqueue old op st Hinv) as (st1 & -> & Hinv1).
    by apply IH.
  - pose proof (owned_inv_commit old drv st Hinv) as Hinv1.
    destruct (commit drv (fst st) (snd st)) as [[v mb'] db'].
    by apply IH.
Qed.

Lemma owned_inv_program limit_arg script (db0 : Firestore) :
  ∃ st, program limit_arg script db0 = Normal st
        ∧ owned_inv db0 st
        ∧ limit (fst st) = Z.min (default BATCH_LIMIT limit_arg) BATCH_LIMIT.
Proof.
  unfold program.
  destruct (constructor_round limit_arg db0) as (L & -> & HL).
  destruct (owned_inv_run db0 script (round_state L db0 [] []))
    as (st & Hrun & Hinv).
  { pose proof (owned_inv_fresh L db0 []) as Hfresh.
    by rewrite app_nil_r in Hfresh. }
  exists st. split; [done|]. split; [done|].
  by rewrite (run_limit _ _ _ Hrun).
Qed.

(** X1.  The limit is fixed at construction: after any calls and commits it
    is the supplied limit capped at 500 (500 when none was supplied), so it
    never exceeds 500. *)
Theorem limit_capped_and_fixed limit_arg script (db0 : Firestore) :
  ∃ mb db,
    program limit_arg script db0 = Normal (mb, db)
    ∧ limit mb = Z.min (default BATCH_LIMIT limit_arg) BATCH_LIMIT
    ∧ limit mb ≤ BATCH_LIMIT.
Proof.
  destruct (owned_inv_program limit_arg script db0) as ([mb db] & Hrun & _ & Hlim).
  exists mb, db. cbn [fst] in Hlim. split; [done|]. split; [done|]. lia.
Qed.

(** X2.  [getBatch] yields [undefined] exactly when [batches] is empty while
    the counter is below the limit, and for an object made by the constructor
    that is never the case: in every state reached by calls and commits,
    [getBatch] yields a handle that the connection has handed out. *)
Theorem getBatch_never_undefined :
  (∀ mb (db : Firestore),
     fst (fst (getBatch mb db)) = None
     ↔ batches mb = [] ∧ operations mb < limit mb)
  ∧ (∀ limit_arg script (db0 : Firestore),
       ∃ mb db h mb1 db1,
         program limit_arg script db0 = Normal (mb, db)
         ∧ getBatch mb db = (Some h, mb1, db1)
         ∧ is_Some (db1 !! h)).
Proof.
  split.
  - intros mb db. unfold getBatch, batch.
    destruct (Z.ltb_spec (operations mb) (limit mb)) as [Hroom|Hnoroom];
      cbn [fst].
    + split; [by intros Hnone%last_None|]. intros [Hnil _]. by apply last_None.
    + split; [done|]. intros [_ Habs]. lia.
  - intros limit_arg script db0.
    destruct (handles_valid_program limit_arg script db0)
      as ([mb db] & Hrun & Hne & Hvalid).
    cbn [fst snd] in *.
    destruct (operations mb <? limit mb) eqn:Hcmp.
    + destruct (last (batches mb)) as [h|] eqn:Hlast;
        [|by apply last_None in Hlast].
      exists mb, db, h, mb, db. split; [done|].
      split; [unfold getBatch; by rewrite Hcmp, Hlast|].
      apply lookup_lt_is_Some. apply last_Some_elem_of in Hlast.
      by eapply Forall_forall in Hvalid; [|exact Hlast].
    + eexists mb, db, (length db), _, _. split; [done|].
      split; [unfold getBatch, batch; by rewrite Hcmp|].
      apply lookup_lt_is_Some. rewrite length_app. cbn. lia.
Qed.

(** X3.  After any calls and commits, whatever the limit, [operations] is
    the number of calls staged on the last handle of [batches]. *)
Theorem operations_counts_last_handle limit_arg script (db0 : Firestore) :
  ∃ mb db h cur,
    program limit_arg script db0 = Normal (mb, db)
    ∧ last (batches mb) = Some h
    ∧ db !! h = Some cur
    ∧ operations mb = Z.of_nat (length cur).
Proof.
  destruct (owned_inv_program limit_arg script db0)
    as ([mb db] & Hrun & (_ & _ & _ & h & cur & Hlast & Hcur & Hlen) & _).
  by exists mb, db, h, cur.
Qed.

(** X4.  After any calls and commits, [batches] holds no handle twice and
    every handle in it is one the connection has handed out: a commit submits
    each handle once. *)
Theorem batches_distinct_handles limit_arg script (db0 : Firestore) :
  ∃ mb db,
    program limit_arg script db0 = Normal (mb, db)
    ∧ NoDup (batches mb)
    ∧ Forall (λ h, is_Some (db !! h)) (batches mb).
Proof.
  destruct (owned_inv_program limit_arg script db0)
    as ([mb db] & Hrun & (_ & Hnodup & Hvalid & _) & _).
  exists mb, db. split; [done|]. split; [done|]. cbn [fst snd] in Hvalid.
  eapply Forall_impl; [exact Hvalid|]. cbn. intros h Hh.
  apply lookup_lt_is_Some. lia.
Qed.

(** X5.  The object only ever works on handles it obtained itself: after any
    calls and commits, the handles the connection had handed out before the
    object was made hold what they held, and none of them is in [batches]. *)
Theorem foreign_handles_untouched limit_arg script (db0 : Firestore) :
  ∃ mb db,
    program limit_arg script db0 = Normal (mb, db)
    ∧ (∀ h, (h < length db0)%nat → db !! h = db0 !! h ∧ h ∉ batches mb).
Proof.
  destruct (owned_inv_program limit_arg script db0)
    as ([mb db] & Hrun & ([new Hnew] & _ & Hvalid & _) & _).
  cbn [fst snd] in *. exists mb, db. split; [done|].
  intros h Hh. split.
  - rewrite Hnew. by apply lookup_app_l.
  - intros Hin. eapply Forall_forall in Hvalid; [|exact Hin].
    cbn in Hvalid. lia.
Qed.

(** X6.  Handles whose commit succeeded are let go: once a commit of the
    object has succeeded, whatever calls and commits follow, none of the
    handles that were committed is in [batches] again and each holds what it
    held at the commit. *)
Theorem committed_handles_dropped limit_arg script drv script' (db0 : Firestore)
    mb db :
  program limit_arg script db0 = Normal (mb, db) →
  Forall (fulfilled_by drv) (batches mb) →
  ∃ mb' db',
    run (act_commit drv :: script') (mb, db) = Normal (mb', db')
    ∧ ∀ h, h ∈ batches mb → (h ∉ batches mb') ∧ db' !! h = db !! h.
Proof.
  intros Hrun Hall.
  destruct (owned_inv_program limit_arg script db0)
    as (st & Hrun' & (_ & _ & Hvalid & _) & _).
  rewrite Hrun in Hrun'. injection Hrun' as <-. cbn [fst snd] in Hvalid.
  cbn [run fst snd]. unfold commit.
  rewrite (Promise_all_fulfilled drv (batches mb) Hall). cbn [batch].
  pose proof (owned_inv_fresh (limit mb) db []) as Hfresh.
  rewrite app_nil_r in Hfresh.
  destruct (owned_inv_run db script' _ Hfresh)
    as ([mb' db'] & Hrest & [new Hnew] & _ & Hvalid' & _).
  cbn [fst snd] in *. exists mb', db'. split; [done|].
  intros h Hin. eapply Forall_forall in Hvalid; [|exact Hin]. cbn in Hvalid.
  split.
  - intros Hin'. eapply Forall_forall in Hvalid'; [|exact Hin'].
    cbn in Hvalid'. lia.
  - rewrite Hnew. apply lookup_app_l. lia.
Qed.

Lemma committed_handles_dropped_witness :
  ∃ mb' db',
    run [act_commit all_ok; act_enqueue sample_set; act_enqueue sample_set]
      (three_handles, three_handles_store) = Normal (mb', db')
    ∧ ∀ h, h ∈ batches three_handles →
           (h ∉ batches mb') ∧ db' !! h = three_handles_store !! h.
Proof.
  apply (committed_handles_dropped (Some 1)
           (replicate 3 (act_enqueue sample_set)) all_ok
           [act_enqueue sample_set; act_enqueue sample_set] [[]]
           three_handles three_handles_store).
  - reflexivity.
  - repeat constructor; by eexists.
Defined.

Lemma Forall2_seq_lookup (db0 l : list (list StagedCall)) :
  Forall2 (λ h c, (db0 ++ l) !! h = Some c) (seq (length db0) (length l)) l.
Proof.
  apply Forall2_same_length_lookup_2; [by rewrite length_seq|].
  intros i h c [-> _]%lookup_seq Hc.
  rewrite lookup_app_r by lia. rewrite <- Hc. f_equal. lia.
Qed.

Lemma concat_singletons (ops : list Operation) :
  concat (map (λ op, [call_of op]) ops) = map call_of ops.
Proof. induction ops as [|op ops IH]; cbn; [done|by rewrite IH]. Qed.

(** X7.  No call is lost, repeated or reordered, whatever the limit: after
    any sequence of calls on a new object, the contents of the handles of
    [batches], read in order, are exactly the calls in the order they were
    made. *)
Theorem calls_conserved_in_order limit_arg (ops : list Operation)
    (db0 : Firestore) :
  ∃ mb db cs,
    session limit_arg ops db0 = Normal (mb, db)
    ∧ Forall2 (λ h c, db !! h = Some c) (batches mb) cs
    ∧ concat cs = map call_of ops.
Proof.
  destruct (Z.lt_ge_cases 0 (default BATCH_LIMIT limit_arg)) as [Hpos|Hneg].
  - unfold session.
    destruct (constructor_round limit_arg db0) as (L & -> & HL).
    assert (0 < L) by (unfold BATCH_LIMIT in *; lia).
    destruct (enqueue_all_round L db0 ops [] [])
      as (full & cur & -> & Hok & Hcat); [done|apply chunks_ok_nil|].
    eexists _, _, (full ++ [cur]). split; [reflexivity|]. cbn [batches]. split.
    + replace (S (length full)) with (length (full ++ [cur]))
        by (rewrite length_app; cbn; lia).
      apply Forall2_seq_lookup.
    + rewrite concat_app. cbn [concat]. by rewrite app_nil_r, Hcat.
  - destruct limit_arg as [L|]; [|by unfold BATCH_LIMIT in Hneg].
    cbn in Hneg. unfold session.
    rewrite constructor_keeps_small_limit by (unfold BATCH_LIMIT; lia).
    pose proof (enqueue_all_exhausted L db0 ops [] 0 Hneg Hneg) as Hrun.
    eexists _, _, ([] :: map (λ op, [call_of op]) ops).
    split; [exact Hrun|]. cbn [batches]. split.
    + cbn [length app Nat.add].
      replace (S (length ops))
        with (length ([] :: map (λ op, [call_of op]) ops))
        by (cbn; by rewrite length_map).
      apply Forall2_seq_lookup.
    + cbn [concat app]. apply concat_singletons.
Qed.

(** X8.  With a positive limit L, after any sequence of calls on a new
    object every handle of [batches] but the last holds exactly L calls and
    the last holds [operations] calls; once a call has been made that is
    between 1 and L, so no handle is empty. *)
Theorem handles_filled_exactly limit_arg (ops : list Operation)
    (db0 : Firestore) :
  0 < default BATCH_LIMIT limit_arg →
  ∃ mb db full cur,
    session limit_arg ops db0 = Normal (mb, db)
    ∧ Forall2 (λ h c, db !! h = Some c) (batches mb) (full ++ [cur])
    ∧ Forall (λ c, Z.of_nat (length c) = limit mb) full
    ∧ Z.of_nat (length cur) = operations mb
    ∧ (ops ≠ [] → 1 ≤ operations mb ≤ limit mb).
Proof.
  intros Hpos. unfold session.
  destruct (constructor_round limit_arg db0) as (L & -> & HL).
  assert (0 < L) by (unfold BATCH_LIMIT in *; lia).
  destruct (enqueue_all_round L db0 ops [] [])
    as (full & cur & -> & (Hfull & Hcur & Hemp) & Hcat);
    [done|apply chunks_ok_nil|].
  eexists _, _, full, cur. split; [reflexivity|].
  cbn [limit batches operations]. split; [|split; [|split; [done|]]].
  - replace (S (length full)) with (length (full ++ [cur]))
      by (rewrite length_app; cbn; lia).
    apply Forall2_seq_lookup.
  - eapply Forall_impl; [exact Hfull|]. cbn. intros; lia.
  - intros Hops. split; [|lia].
    destruct cur as [|c cur]; [|cbn; lia].
    rewrite (Hemp eq_refl) in Hcat. cbn in Hcat.
    destruct ops; [done|discriminate Hcat].
Qed.

Lemma handles_filled_exactly_witness :
  ∃ mb db full cur,
    session (Some 2) (replicate 5 sample_set) [] = Normal (mb, db)
    ∧ Forall2 (λ h c, db !! h = Some c) (batches mb) (full ++ [cur])
    ∧ Forall (λ c, Z.of_nat (length c) = limit mb) full
    ∧ Z.of_nat (length cur) = operations mb
    ∧ 1 ≤ operations mb ≤ limit mb.
Proof.
  destruct (handles_filled_exactly (Some 2) (replicate 5 sample_set) [])
    as (mb & db & full & cur & Hrun & Hcs & Hfull & Hcur & Hops); [cbn; lia|].
  exists mb, db, full, cur. split; [exact Hrun|]. split; [exact Hcs|].
  split; [exact Hfull|]. split; [exact Hcur|]. apply Hops. discriminate.
Defined.

Lemma stage_on_target_layout c1 c2 mb (db1 db2 : Firestore) :
  length db1 = length db2 →
  match stage_on_target c1 mb db1, stage_on_target c2 mb db2 with
  | Normal st1, Normal st2 =>
      fst st1 = fst st2 ∧ length (snd st1) = length (snd st2)
  | Throw _, Throw _ => True
  | _, _ => False
  end.
Proof.
  intros Hlen. unfold stage_on_target, getBatch, batch.
  destruct (operations mb <? limit mb).
  - destruct (last (batches mb)) as [h|]; [|done].
    cbn. by rewrite !stage_length.
  - cbn. rewrite !stage_length, !length_app, Hlen. done.
Qed.

Lemma enqueue_all_layout ops1 : ∀ ops2 mb (db1 db2 : Firestore),
  length ops1 = length ops2 → length db1 = length db2 →
  fields (enqueue_all ops1 (mb, db1)) = fields (enqueue_all ops2 (mb, db2)).
Proof.
  induction ops1 as [|op1 ops1 IH]; intros [|op2 ops2] mb db1 db2 Hops Hdb;
    try discriminate Hops; [done|].
  cbn [enqueue_all]. rewrite !enqueue_stage.
  pose proof (stage_on_target_layout (call_of op1) (call_of op2) mb db1 db2 Hdb)
    as Hstep.
  destruct (stage_on_target (call_of op1) mb db1) as [[mb1 db1']|],
           (stage_on_target (call_of op2) mb db2) as [[mb2 db2']|];
    try done.
  cbn [fst snd] in Hstep. destruct Hstep as [<- Hdb'].
  apply IH; [by injection Hops|done].
Qed.

(** X9.  delete, set and update count alike: two sequences of calls of the
    same length, made on the same object, leave the same [batches],
    [operations] and limit, whichever mutators they call and with whatever
    arguments. *)
Theorem layout_ignores_operation_kind (st : State) (ops1 ops2 : list Operation) :
  length ops1 = length ops2 →
  fields (enqueue_all ops1 st) = fields (enqueue_all ops2 st).
Proof. destruct st as [mb db]. intros Hlen. by apply enqueue_all_layout. Qed.

Lemma layout_ignores_operation_kind_witness :
  fields (enqueue_all [op_delete "a"%string; sample_set]
            (three_handles, three_handles_store))
  = fields (enqueue_all [sample_set; op_update "b"%string []]
              (three_handles, three_handles_store)).
Proof.
  apply (layout_ignores_operation_kind (three_handles, three_handles_store)
           [op_delete "a"%string; sample_set]
           [sample_set; op_update "b"%string []]).
  reflexivity.
Defined.

(** X11.  A commit that succeeds leaves the object as a new one: after any
    calls and commits, a successful commit ends in exactly the object and
    store that constructing a new object with the same limit on the same
    connection gives. *)
Theorem commit_like_new_object limit_arg script drv (db0 : Firestore) mb db :
  program limit_arg script db0 = Normal (mb, db) →
  Forall (fulfilled_by drv) (batches mb) →
  ∃ v mb' db',
    commit drv mb db = (Fulfilled v, mb', db')
    ∧ constructor (Some (limit mb)) db = Normal (mb', db').
Proof.
  intros Hrun Hall.
  destruct (owned_inv_program limit_arg script db0) as (st & Hrun' & _ & Hlim).
  rewrite Hrun in Hrun'. injection Hrun' as <-. cbn [fst] in Hlim.
  eexists void, _, _. split.
  - unfold commit. rewrite (Promise_all_fulfilled drv (batches mb) Hall).
    reflexivity.
  - unfold constructor, batch.
    destruct (Z.ltb_spec (limit mb) BATCH_LIMIT) as [_|Hge]; [done|].
    do 3 f_equal. lia.
Qed.

Lemma commit_like_new_object_witness :
  ∃ v mb' db',
    commit all_ok three_handles three_handles_store = (Fulfilled v, mb', db')
    ∧ constructor (Some 1) three_handles_store = Normal (mb', db').
Proof.
  apply (commit_like_new_object (Some 1) (replicate 3 (act_enqueue sample_set))
           all_ok [[]] three_handles three_handles_store).
  - reflexivity.
  - repeat constructor; by eexists.
Defined.

(** X12.  A commit with nothing enqueued is not skipped: on a new object it
    submits the one empty handle; if that commit fails the failure is
    reported and the object is kept, otherwise the handle is replaced by a
    new one. *)
Theorem commit_without_calls limit_arg drv (db0 : Firestore) :
  ∃ mb db,
    constructor limit_arg db0 = Normal (mb, db)
    ∧ batches mb = [length db0]
    ∧ db !! length db0 = Some []
    ∧ commit drv mb db
      = match outcome (drv (length db0)) with
        | Fulfilled _ =>
            (Fulfilled void,
             {| limit := limit mb; batches := [length db]; operations := 0 |},
             db ++ [[]])
        | Rejected r => (Rejected r, mb, db)
        end.
Proof.
  destruct (constructor_round limit_arg db0) as (L & -> & _).
  eexists _, _. split; [reflexivity|]. cbn [batches limit].
  split; [done|]. split; [by apply (list_lookup_middle db0 [] [])|].
  unfold commit, Promise_all. cbn [batches map first_rejection seq].
  by destruct (outcome (drv (length db0))).
Qed.
